(** * Random graph generators: the cycle script and the two-community script

    A shallow embedding of [graph2.py] (a random cycle over a shuffled
    vertex order) and [graph_generation.py] (a two-block random graph),
    with the properties of the edge lists they build.

    Python integers that index lists are natural numbers here; the only
    negative subscript of the sources, [indices[-1]], goes through
    [subscript], which takes an integer.  A failing subscript
    (IndexError) ends the run with [None].

    The process-wide generator of the [random] module is an oracle: an
    infinite sequence of raw draws and a cursor into it.  Each call of
    [random.random()] or of the shuffle's [randbelow] consumes one draw.

    The constants of the scripts ([NUMBER_OF_VERTICES] and the three
    edge probabilities) are parameters of the embedded functions;
    [graph2_script] and [graph_generation_script] are the scripts with
    the values they have in the sources. *)

From Stdlib Require Import QArith DecimalString DecimalNat.
From stdpp Require Import base numbers strings sets relations list.

Local Open Scope nat_scope.
Set Warnings "-register-all,-clear-no-such-hyp".

(** ** The random source and the monad of the scripts *)

Module Rand.

(** The raw draws: draw number [k] is [d k]. *)
Definition draws : Type := nat → N.

(** A computation reads the draws from a cursor, and either fails or
    returns a value and the cursor after it. *)
Definition M (A : Type) : Type := draws → nat → option (A * nat).

Definition ret {A} (a : A) : M A := fun _ pos => Some (a, pos).

Definition bind {A B} (m : M A) (k : A → M B) : M B :=
  fun d pos =>
    match m d pos with
    | Some (a, pos') => k a d pos'
    | None => None
    end.

Definition raise {A} : M A := fun _ _ => None.

Definition next_draw : M N := fun d pos => Some (d pos, S pos).

(** Agreement of two draw sequences on the positions [lo <= k < hi]. *)
Definition agree (d1 d2 : draws) (lo hi : nat) : Prop :=
  ∀ k, lo ≤ k → k < hi → d1 k = d2 k.

End Rand.

Import Rand.

Notation "'let*' x := m 'in' k" := (bind m (fun x => k))
  (at level 10, x name, m at level 100, k at level 200).
Notation "'let*' ' pat := m 'in' k" :=
  (bind m (fun x => match x with pat => k end))
  (at level 10, pat pattern, m at level 100, k at level 200).

(** [for x in xs: s = body(x, s)] *)
Fixpoint for_each {X S} (xs : list X) (body : X → S → M S) (s : S) : M S :=
  match xs with
  | [] => ret s
  | x :: xs' => let* s' := body x s in for_each xs' body s'
  end.

(** ** The library calls the scripts make *)

(** [range(n)] and [range(a, b)]. *)
Definition range (n : nat) : list nat := seq 0 n.
Definition range_from (a b : nat) : list nat := seq a (b - a).

(** [l[i]] for a Python integer [i]: a negative [i] counts from the end,
    and an index outside the list raises IndexError. *)
Definition subscript {A} (l : list A) (i : Z) : option A :=
  if (0 <=? i)%Z then l !! Z.to_nat i
  else if (- i <=? Z.of_nat (length l))%Z
       then l !! Z.to_nat (Z.of_nat (length l) + i)
       else None.

Definition getitem {A} (l : list A) (i : Z) : M A :=
  match subscript l i with
  | Some a => ret a
  | None => raise
  end.

(** [f"{n}"] for an integer [n >= 0]. *)
Definition format_int (n : nat) : string :=
  NilEmpty.string_of_uint (Nat.to_uint n).

(** [random.random()] returns a float [k / 2^53] with [0 <= k < 2^53];
    such a float, and each float literal of the scripts, is an exact
    rational, and [<] on floats is [<] on these rationals. *)
Definition two53 : positive := 9007199254740992%positive.

Definition float_of_draw (r : N) : Q :=
  Z.of_N (r mod Npos two53) # two53.

Definition random : M Q := let* r := next_draw in ret (float_of_draw r).

Definition float_lt (x y : Q) : bool :=
  match (x ?= y)%Q with
  | Lt => true
  | _ => false
  end.

(** [randbelow(n)] returns an integer in [[0, n)]. *)
Definition randbelow (n : nat) : M nat :=
  let* r := next_draw in ret (N.to_nat r mod n).

(** [random.shuffle(x)]:
<<
    for i in reversed(range(1, len(x))):
        j = randbelow(i + 1)
        x[i], x[j] = x[j], x[i]
>> *)
Definition swap_items {A} (x : list A) (i j : nat) : M (list A) :=
  let* xj := getitem x (Z.of_nat j) in
  let* xi := getitem x (Z.of_nat i) in
  ret (<[j := xi]> (<[i := xj]> x)).

Definition shuffle_step {A} (i : nat) (x : list A) : M (list A) :=
  let* j := randbelow (i + 1) in swap_items x i j.

Definition shuffle {A} (x : list A) : M (list A) :=
  for_each (rev (range_from 1 (length x))) shuffle_step x.

(** ** The graph both scripts build, and the document they write *)

Record graph : Type := Graph {
  vertices : list string;
  edges : list (list nat)
}.

Inductive json : Type :=
| JNum (z : Z)
| JStr (s : string)
| JArr (items : list json)
| JObj (fields : list (string * json)).

(** The argument of [json.dumps]:
    [{ "vertices": vertices, "edges": edges }]. *)
Definition json_edge (e : list nat) : json :=
  JArr ((fun v => JNum (Z.of_nat v)) <$> e).

Definition document (g : graph) : json :=
  JObj [("vertices"%string, JArr (JStr <$> vertices g));
        ("edges"%string, JArr (json_edge <$> edges g))].

(** Reading the document back: [doc[key]] and the items of an array. *)
Definition json_get (key : string) (j : json) : option json :=
  match j with
  | JObj fields => snd <$> List.find (fun kv => String.eqb kv.1 key) fields
  | _ => None
  end.

Definition json_items (j : json) : list json :=
  match j with
  | JArr items => items
  | _ => []
  end.

Definition vertices_array (j : json) : list json :=
  from_option json_items [] (json_get "vertices" j).

Definition edges_array (j : json) : list json :=
  from_option json_items [] (json_get "edges" j).

(** The [vertices = [f"{i+1}" for i in range(N)]] of both scripts. *)
Definition vertex_names (n : nat) : list string :=
  (fun i => format_int (i + 1)) <$> range n.

(** ** graph2.py *)

(** [range(NUMBER_OF_VERTICES - 1)] is empty when the count is 0, as the
    truncated subtraction makes it here; [indices[-1]] then raises. *)
Definition graph2 (NUMBER_OF_VERTICES : nat) : M graph :=
  let vertices := vertex_names NUMBER_OF_VERTICES in
  let indices := range NUMBER_OF_VERTICES in
  let* indices := shuffle indices in
  let edges := [] in
  let* edges := for_each (range (NUMBER_OF_VERTICES - 1))
             (fun i edges =>
                let* a := getitem indices (Z.of_nat i) in
                let* b := getitem indices (Z.of_nat (i + 1)) in
                ret (edges ++ [[a; b]]))
             edges in
  let* a := getitem indices (-1) in
  let* b := getitem indices 0 in
  let edges := edges ++ [[a; b]] in
  ret (Graph vertices edges).

(** The script as it stands. *)
Definition graph2_script : M graph := graph2 1000.

(** ** graph_generation.py *)

(** The loop body shared by the three edge loops:
<<
    if random.random() < p:
        edges.append([ca[i], cb[j]])
>> *)
Definition maybe_edge (p : Q) (ca cb : list nat) (i j : nat)
    (edges : list (list nat)) : M (list (list nat)) :=
  let* r := random in
  if float_lt r p then
    let* a := getitem ca (Z.of_nat i) in
    let* b := getitem cb (Z.of_nat j) in
    ret (edges ++ [[a; b]])
  else ret edges.

Definition assign_communities (NUMBER_OF_VERTICES : nat)
    : M (list nat * list nat) :=
  for_each (range NUMBER_OF_VERTICES)
    (fun v '(community1, community2) =>
       let* r := random in
       if float_lt r (1 # 2) then ret (community1 ++ [v], community2)
       else ret (community1, community2 ++ [v]))
    ([], []).

Definition graph_generation (NUMBER_OF_VERTICES : nat) (p1 p2 p3 : Q)
    : M graph :=
  let vertices := vertex_names NUMBER_OF_VERTICES in
  let* '(community1, community2) := assign_communities NUMBER_OF_VERTICES in
  let edges := [] in
  let* edges := for_each (range (length community1))
             (fun i edges =>
                for_each (range_from (i + 1) (length community1))
                  (fun j edges => maybe_edge p1 community1 community1 i j edges)
                  edges)
             edges in
  let* edges := for_each (range (length community2))
             (fun i edges =>
                for_each (range_from (i + 1) (length community2))
                  (fun j edges => maybe_edge p2 community2 community2 i j edges)
                  edges)
             edges in
  let* edges := for_each (range (length community1))
             (fun i edges =>
                for_each (range (length community2))
                  (fun j edges => maybe_edge p3 community1 community2 i j edges)
                  edges)
             edges in
  ret (Graph vertices edges).

(** The float literals [0.01] and [0.001], as the exact rationals the
    doubles denote. *)
Definition float_0_01 : Q := 5764607523034235 # 576460752303423488.
Definition float_0_001 : Q := 1152921504606847 # 1152921504606846976.

(** The script as it stands. *)
Definition graph_generation_script : M graph :=
  graph_generation 1000 float_0_01 float_0_01 float_0_001.

(** The two communities alone, for the statements about them. *)
Definition communities (NUMBER_OF_VERTICES : nat) (d : draws)
    : option (list nat * list nat) :=
  fst <$> assign_communities NUMBER_OF_VERTICES d 0.

(** Running a script from the first draw. *)
Definition run {A} (m : M A) (d : draws) : option A := fst <$> m d 0.

(** ** Closed forms of the loops, and the counting functions *)

(** The communities the assignment loop builds from the vertices [vs],
    reading the draws from [pos]. *)
Fixpoint assign (d : draws) (pos : nat) (vs : list nat) : list nat * list nat :=
  match vs with
  | [] => ([], [])
  | v :: vs' =>
      let '(c1, c2) := assign d (S pos) vs' in
      if float_lt (float_of_draw (d pos)) (1 # 2) then (v :: c1, c2)
      else (c1, v :: c2)
  end.

(** The candidate edges an edge loop keeps: candidate number [k] is kept
    when draw [pos + k] is below [p]. *)
Fixpoint sample (p : Q) (d : draws) (pos : nat) (cands : list (list nat))
    : list (list nat) :=
  match cands with
  | [] => []
  | e :: cands' =>
      if float_lt (float_of_draw (d pos)) p then e :: sample p d (S pos) cands'
      else sample p d (S pos) cands'
  end.

(** The candidates, in the order the loops visit them. *)
Definition pairs_from (x : nat) (c : list nat) : list (list nat) :=
  (fun y => [x; y]) <$> c.

Fixpoint pairs_within (c : list nat) : list (list nat) :=
  match c with
  | [] => []
  | x :: c' => pairs_from x c' ++ pairs_within c'
  end.

Fixpoint pairs_cross (ca cb : list nat) : list (list nat) :=
  match ca with
  | [] => []
  | x :: ca' => pairs_from x cb ++ pairs_cross ca' cb
  end.

(** The edges between neighbours of an order [s], and the cycle that
    closes them. *)
Fixpoint path_edges (s : list nat) : list (list nat) :=
  match s with
  | a :: ((b :: _) as s') => [a; b] :: path_edges s'
  | _ => []
  end.

(** The order the shuffle leaves, as a function of the draws. *)
Definition shuffled (n : nat) (d : draws) : option (list nat) :=
  run (shuffle (range n)) d.

(** An edge joins [a] and [b], in either order. *)
Definition joins (a b : nat) (e : list nat) : bool :=
  bool_decide (e = [a; b]) || bool_decide (e = [b; a]).

(** How many edges join [a] and [b]. *)
Definition count_pair (a b : nat) (es : list (list nat)) : nat :=
  length (filter (fun e => joins a b e = true) es).

(** How many edges have [v] as an endpoint. *)
Definition incident_edges (v : nat) (es : list (list nat)) : nat :=
  length (filter (fun e => v ∈ e) es).

(** How many edge endpoints are [v] (a loop at [v] counts twice). *)
Definition endpoint_count (v : nat) (es : list (list nat)) : nat :=
  length (filter (fun w => w = v) (concat es)).

(** The result of [x[i], x[j] = x[j], x[i]], when both subscripts are in
    range. *)
Definition swapped {A} (x : list A) (i j : nat) : option (list A) :=
  match x !! j, x !! i with
  | Some xj, Some xi => Some (<[j := xi]> (<[i := xj]> x))
  | _, _ => None
  end.

(** The edge that closes the cycle, from the last element to the first. *)
Definition closing_edge (s : list nat) : list (list nat) :=
  match s !! (length s - 1), s !! 0 with
  | Some a, Some b => [[a; b]]
  | _, _ => []
  end.

Definition cycle_edges (s : list nat) : list (list nat) :=
  path_edges s ++ closing_edge s.

(** The candidate edges of a run, in the order the loops visit them, and
    the edges the three loops keep. *)
Definition candidates (c1 c2 : list nat) : list (list nat) :=
  pairs_within c1 ++ pairs_within c2 ++ pairs_cross c1 c2.

Definition kept_edges (n : nat) (p1 p2 p3 : Q) (d : draws)
    (c1 c2 : list nat) : list (list nat) :=
  sample p1 d n (pairs_within c1)
  ++ sample p2 d (n + length (pairs_within c1)) (pairs_within c2)
  ++ sample p3 d (n + length (pairs_within c1) + length (pairs_within c2))
       (pairs_cross c1 c2).

(** Draws that make the shuffle of [[0; 1; 2; 3]] leave [[2; 0; 3; 1]]. *)
Definition example_draws : draws :=
  fun k => match k with 0 | 1 => 1%N | _ => 0%N end.

Definition zero_draws : draws := fun _ => 0%N.

(** Draws whose third float is [0.5] and whose other floats are [0.0]. *)
Definition half_draws : draws :=
  fun k => match k with 2 => 4503599627370496%N | _ => 0%N end.

(** The test [random.random() < 0.5] on draw [v], the draw the assignment
    loop reads for vertex [v]. *)
Definition in_first (d : draws) (v : nat) : bool :=
  float_lt (float_of_draw (d v)) (1 # 2).


(** Two vertices are adjacent when an edge joins them, in either order. *)
Definition adjacent (es : list (list nat)) (a b : nat) : Prop :=
  [a; b] ∈ es ∨ [b; a] ∈ es.

(** ** Running the library calls *)

Ltac run_monad :=
  cbv beta iota delta [bind ret raise random randbelow next_draw].

Lemma subscript_nat {A} (l : list A) (i : nat) :
  subscript l (Z.of_nat i) = l !! i.
Proof.
  unfold subscript.
  destruct (Z.leb_spec 0 (Z.of_nat i)); [|lia].
  by rewrite Nat2Z.id.
Qed.

Lemma subscript_last {A} (l : list A) :
  subscript l (-1) = if decide (l = []) then None else l !! (length l - 1).
Proof.
  unfold subscript. simpl (0 <=? -1)%Z. cbv iota.
  destruct l as [|x l]; [done|].
  destruct (Z.leb_spec (- -1) (Z.of_nat (length (x :: l)))) as [_|H];
    [|simpl in H; lia].
  rewrite decide_False by done. f_equal. lia.
Qed.

Lemma getitem_nat {A} (l : list A) (i : nat) (x : A) d pos :
  l !! i = Some x → getitem l (Z.of_nat i) d pos = Some (x, pos).
Proof. intros H. unfold getitem. by rewrite subscript_nat, H. Qed.

Lemma maybe_edge_run p ca cb i j a b es d pos :
  ca !! i = Some a → cb !! j = Some b →
  maybe_edge p ca cb i j es d pos =
    Some (if float_lt (float_of_draw (d pos)) p then es ++ [[a; b]] else es,
          S pos).
Proof.
  intros Ha Hb. unfold maybe_edge. run_monad.
  destruct (float_lt _ _); [|done].
  by rewrite (getitem_nat _ _ _ _ _ Ha), (getitem_nat _ _ _ _ _ Hb).
Qed.

(** ** The assignment loop *)

Lemma assign_loop d vs c1 c2 pos :
  for_each vs
    (fun v '(community1, community2) =>
       let* r := random in
       if float_lt r (1 # 2) then ret (community1 ++ [v], community2)
       else ret (community1, community2 ++ [v]))
    (c1, c2) d pos
  = Some ((c1 ++ (assign d pos vs).1, c2 ++ (assign d pos vs).2),
          pos + length vs).
Proof.
  revert c1 c2 pos. induction vs as [|v vs IH]; intros c1 c2 pos; simpl.
  - unfold ret. by rewrite !app_nil_r, Nat.add_0_r.
  - run_monad.
    destruct (assign d (S pos) vs) as [a1 a2] eqn:Ha.
    destruct (float_lt _ _); rewrite IH, Ha; simpl;
      rewrite <- ?app_assoc; simpl; do 2 f_equal; lia.
Qed.

Lemma assign_perm d vs pos :
  (assign d pos vs).1 ++ (assign d pos vs).2 ≡ₚ vs.
Proof.
  revert pos. induction vs as [|v vs IH]; intros pos; simpl; [done|].
  specialize (IH (S pos)). destruct (assign d (S pos) vs) as [a1 a2].
  destruct (float_lt _ _); simpl in *.
  - by rewrite IH.
  - by rewrite <- Permutation_middle, IH.
Qed.

Lemma assign_agree d1 d2 vs pos :
  agree d1 d2 pos (pos + length vs) → assign d1 pos vs = assign d2 pos vs.
Proof.
  revert pos. induction vs as [|v vs IH]; intros pos H; simpl; [done|].
  rewrite (H pos) by (simpl; lia). rewrite IH; [done|].
  intros k ? ?. apply H; simpl in *; lia.
Qed.

Lemma communities_run N d :
  communities N d = Some (assign d 0 (range N)).
Proof.
  unfold communities, assign_communities. rewrite assign_loop. simpl.
  by destruct (assign d 0 (range N)).
Qed.

(** ** The edge loops of graph_generation.py *)

Lemma sample_app p d pos xs ys :
  sample p d pos (xs ++ ys)
  = sample p d pos xs ++ sample p d (pos + length xs) ys.
Proof.
  revert pos. induction xs as [|x xs IH]; intros pos; simpl.
  - by rewrite Nat.add_0_r.
  - rewrite IH. replace (S pos + length xs) with (pos + S (length xs)) by lia.
    by destruct (float_lt _ _).
Qed.

Lemma sample_agree p d1 d2 pos xs :
  agree d1 d2 pos (pos + length xs) → sample p d1 pos xs = sample p d2 pos xs.
Proof.
  revert pos. induction xs as [|x xs IH]; intros pos H; simpl; [done|].
  rewrite (H pos) by (simpl; lia). rewrite IH; [done|].
  intros k ? ?. apply H; simpl in *; lia.
Qed.

Lemma length_pairs_from x c : length (pairs_from x c) = length c.
Proof. unfold pairs_from. by rewrite length_fmap. Qed.

(** The inner loop, from index [k] of [cb] on. *)
Lemma inner_loop p ca cb i x d m :
  ca !! i = Some x →
  ∀ k es pos, m = length cb - k →
    for_each (seq k m) (fun j es => maybe_edge p ca cb i j es) es d pos
    = Some (es ++ sample p d pos (pairs_from x (drop k cb)), pos + m).
Proof.
  intros Hx. induction m as [|m IH]; intros k es pos Hm; simpl.
  - rewrite drop_ge by lia. simpl. unfold ret.
    by rewrite app_nil_r, Nat.add_0_r.
  - destruct (lookup_lt_is_Some_2 cb k) as [y Hy]; [lia|].
    rewrite (drop_S _ _ _ Hy). simpl. unfold bind at 1.
    rewrite (maybe_edge_run _ _ _ _ _ _ _ _ _ _ Hx Hy).
    rewrite IH by lia.
    destruct (float_lt _ _); rewrite <- ?app_assoc; simpl;
      do 2 f_equal; lia.
Qed.

(** The two nested loops over one community, from index [k] on. *)
Lemma within_loop p c d m :
  ∀ k es pos, m = length c - k →
    for_each (seq k m)
      (fun i es =>
         for_each (range_from (i + 1) (length c))
           (fun j es => maybe_edge p c c i j es) es)
      es d pos
    = Some (es ++ sample p d pos (pairs_within (drop k c)),
            pos + length (pairs_within (drop k c))).
Proof.
  induction m as [|m IH]; intros k es pos Hm; simpl.
  - rewrite drop_ge by lia. simpl. unfold ret.
    by rewrite app_nil_r, Nat.add_0_r.
  - destruct (lookup_lt_is_Some_2 c k) as [x Hx]; [lia|].
    rewrite (drop_S _ _ _ Hx). simpl. unfold bind at 1.
    unfold range_from.
    rewrite (inner_loop p c c k x d _ Hx (k + 1) es pos eq_refl).
    rewrite IH by lia.
    replace (k + 1) with (S k) by lia.
    rewrite sample_app, length_app, length_pairs_from, length_drop.
    rewrite <- !app_assoc. do 2 f_equal. lia.
Qed.

(** The two nested loops across the communities, from index [k] on. *)
Lemma cross_loop p ca cb d m :
  ∀ k es pos, m = length ca - k →
    for_each (seq k m)
      (fun i es =>
         for_each (range (length cb))
           (fun j es => maybe_edge p ca cb i j es) es)
      es d pos
    = Some (es ++ sample p d pos (pairs_cross (drop k ca) cb),
            pos + length (pairs_cross (drop k ca) cb)).
Proof.
  induction m as [|m IH]; intros k es pos Hm; simpl.
  - rewrite drop_ge by lia. simpl. unfold ret.
    by rewrite app_nil_r, Nat.add_0_r.
  - destruct (lookup_lt_is_Some_2 ca k) as [x Hx]; [lia|].
    rewrite (drop_S _ _ _ Hx). simpl. unfold bind at 1.
    unfold range.
    rewrite (inner_loop p ca cb k x d (length cb) Hx 0 es pos)
      by (by rewrite Nat.sub_0_r).
    rewrite drop_0, IH by lia.
    rewrite sample_app, length_app, length_pairs_from.
    rewrite <- !app_assoc. do 2 f_equal. lia.
Qed.

(** The script never fails, and its result in closed form. *)
Lemma graph_generation_run N p1 p2 p3 d :
  graph_generation N p1 p2 p3 d 0
  = Some (Graph (vertex_names N)
            (kept_edges N p1 p2 p3 d (assign d 0 (range N)).1
               (assign d 0 (range N)).2),
          N + length (candidates (assign d 0 (range N)).1
                        (assign d 0 (range N)).2)).
Proof.
  unfold graph_generation, assign_communities.
  unfold bind at 1. rewrite assign_loop. simpl app.
  replace (0 + length (range N)) with N
    by (unfold range; rewrite length_seq; lia).
  destruct (assign d 0 (range N)) as [c1 c2]. simpl fst. simpl snd.
  unfold range.
  unfold bind at 1.
  rewrite (within_loop p1 c1 d (length c1) 0 [] N) by lia.
  unfold bind at 1.
  rewrite (within_loop p2 c2 d (length c2) 0) by lia.
  unfold bind at 1.
  rewrite (cross_loop p3 c1 c2 d (length c1) 0) by lia.
  rewrite !drop_0. unfold ret, kept_edges, candidates.
  rewrite !length_app. simpl. rewrite <- !app_assoc.
  do 2 f_equal. lia.
Qed.

(** ** Floats in [[0, 1)] against a threshold *)

Lemma float_lt_spec x y : float_lt x y = true ↔ (x < y)%Q.
Proof.
  unfold float_lt. rewrite Qlt_alt.
  destruct (x ?= y)%Q; split; congruence.
Qed.

Lemma float_of_draw_range r : (0 <= float_of_draw r)%Q ∧ (float_of_draw r < 1)%Q.
Proof.
  unfold float_of_draw, Qle, Qlt. simpl Qnum. simpl Qden.
  assert (H : (r mod Npos two53 < Npos two53)%N)
    by (apply N.mod_upper_bound; discriminate).
  apply N2Z.inj_lt in H. change (Z.of_N (Npos two53)) with (Z.pos two53) in H.
  pose proof (N2Z.is_nonneg (r mod Npos two53)) as H0.
  generalize dependent (Z.of_N (r mod Npos two53)). intros k Hk H0. lia.
Qed.

Lemma float_lt_one r p : (1 <= p)%Q → float_lt (float_of_draw r) p = true.
Proof.
  intros Hp. apply float_lt_spec.
  eapply Qlt_le_trans; [apply float_of_draw_range|done].
Qed.

Lemma float_lt_zero r p : (p <= 0)%Q → float_lt (float_of_draw r) p = false.
Proof.
  intros Hp. apply not_true_is_false. rewrite float_lt_spec.
  apply Qle_not_lt. eapply Qle_trans; [done|apply float_of_draw_range].
Qed.

Lemma sample_all p d pos xs : (1 <= p)%Q → sample p d pos xs = xs.
Proof.
  intros Hp. revert pos. induction xs as [|x xs IH]; intros pos; simpl; [done|].
  by rewrite float_lt_one, IH.
Qed.

Lemma sample_none p d pos xs : (p <= 0)%Q → sample p d pos xs = [].
Proof.
  intros Hp. revert pos. induction xs as [|x xs IH]; intros pos; simpl; [done|].
  by rewrite float_lt_zero, IH.
Qed.

Lemma sample_elem p d pos xs e : e ∈ sample p d pos xs → e ∈ xs.
Proof.
  revert pos. induction xs as [|x xs IH]; intros pos; simpl; [done|].
  destruct (float_lt _ _); rewrite ?elem_of_cons; intros H;
    [destruct H as [->|H]; [by left|]|]; right; by eapply IH.
Qed.

(** ** Counting edges *)

Lemma count_pair_app a b xs ys :
  count_pair a b (xs ++ ys) = count_pair a b xs + count_pair a b ys.
Proof. unfold count_pair. by rewrite filter_app, length_app. Qed.

Lemma count_pair_perm a b xs ys :
  xs ≡ₚ ys → count_pair a b xs = count_pair a b ys.
Proof. intros H. unfold count_pair. by rewrite H. Qed.

Lemma count_pair_sample a b p d pos xs :
  count_pair a b (sample p d pos xs) ≤ count_pair a b xs.
Proof.
  revert pos. induction xs as [|x xs IH]; intros pos; simpl; [done|].
  specialize (IH (S pos)). unfold count_pair in *.
  destruct (float_lt _ _); rewrite ?filter_cons; repeat case_decide;
    simpl; lia.
Qed.

Lemma joins_pair a b x y :
  joins a b [x; y] = true ↔ (x = a ∧ y = b) ∨ (x = b ∧ y = a).
Proof.
  unfold joins. rewrite orb_true_iff, !bool_decide_eq_true.
  split.
  - intros [H|H]; simplify_eq; auto.
  - intros [[-> ->]|[-> ->]]; auto.
Qed.

Lemma count_pair_pairs_from a b x c :
  count_pair a b (pairs_from x c)
  = length (filter (fun y => (x = a ∧ y = b) ∨ (x = b ∧ y = a)) c).
Proof.
  unfold count_pair, pairs_from.
  induction c as [|y c IH]; [done|].
  rewrite fmap_cons, !filter_cons.
  destruct (decide (joins a b [x; y] = true)) as [H|H];
    rewrite joins_pair in H; [rewrite decide_True by done|
                              rewrite decide_False by done];
    simpl; by rewrite IH.
Qed.

Lemma occurrences_NoDup (v : nat) (l : list nat) :
  NoDup l →
  length (filter (fun w => w = v) l) = if decide (v ∈ l) then 1 else 0.
Proof.
  induction 1 as [|x l Hx Hl IH]; [done|].
  rewrite filter_cons. destruct (decide (x = v)) as [->|Hne]; simpl.
  - rewrite IH, decide_False by done. rewrite decide_True by left. done.
  - rewrite IH. repeat case_decide; set_solver.
Qed.

Lemma filter_length_ext {A} (P Q : A → Prop)
    `{∀ x, Decision (P x)} `{∀ x, Decision (Q x)} (l : list A) :
  (∀ x, x ∈ l → P x ↔ Q x) → length (filter P l) = length (filter Q l).
Proof.
  induction l as [|x l IH]; intros HPQ; [done|].
  rewrite !filter_cons.
  assert (HPx : P x ↔ Q x) by (apply HPQ; left).
  assert (Hl : length (filter P l) = length (filter Q l))
    by (apply IH; intros; apply HPQ; by right).
  repeat case_decide; simpl; try lia; tauto.
Qed.

Lemma filter_length_none {A} (P : A → Prop) `{∀ x, Decision (P x)}
    (l : list A) :
  (∀ x, x ∈ l → ¬ P x) → length (filter P l) = 0.
Proof.
  induction l as [|x l IH]; intros HP; [done|].
  rewrite filter_cons, decide_False by (apply HP; left).
  apply IH. intros; apply HP; by right.
Qed.

(** Over a duplicate-free community, the candidates within it join each
    pair of distinct members once, and nothing else. *)
Lemma count_pair_within a b (l : list nat) :
  NoDup l →
  count_pair a b (pairs_within l)
  = if decide (a ≠ b ∧ a ∈ l ∧ b ∈ l) then 1 else 0.
Proof.
  induction 1 as [|x l Hx Hl IH]; simpl.
  - rewrite decide_False; [done|]. set_solver.
  - rewrite count_pair_app, count_pair_pairs_from, IH.
    destruct (decide (x = a)) as [->|Hxa].
    + rewrite (filter_length_ext _ (fun y => y = b))
        by (intros y Hy; split; [naive_solver|intros ->; by left]).
      rewrite occurrences_NoDup by done.
      repeat case_decide; set_solver.
    + destruct (decide (x = b)) as [->|Hxb].
      * rewrite (filter_length_ext _ (fun y => y = a))
          by (intros y Hy; split; [naive_solver|intros ->; by right]).
        rewrite occurrences_NoDup by done.
        repeat case_decide; set_solver.
      * rewrite filter_length_none by naive_solver.
        repeat case_decide; set_solver.
Qed.

Lemma elem_of_pairs_from e x c :
  e ∈ pairs_from x c ↔ ∃ y, e = [x; y] ∧ y ∈ c.
Proof. unfold pairs_from. apply list_elem_of_fmap. Qed.

Lemma elem_of_pairs_within e (l : list nat) :
  NoDup l → e ∈ pairs_within l →
  ∃ a b, e = [a; b] ∧ a ≠ b ∧ a ∈ l ∧ b ∈ l.
Proof.
  induction 1 as [|x l Hx Hl IH]; simpl; [by intros ?%elem_of_nil|].
  rewrite elem_of_app, elem_of_pairs_from. intros [(y & -> & Hy)|He].
  - exists x, y. repeat split; [congruence|by left|by right].
  - destruct (IH He) as (a & b & -> & Hab & Ha & Hb).
    exists a, b. repeat split; [done|by right|by right].
Qed.

Lemma length_pairs_within (l : list nat) :
  2 * length (pairs_within l) = length l * (length l - 1).
Proof.
  induction l as [|x l IH]; simpl; [done|].
  rewrite length_app, length_pairs_from, Nat.sub_0_r.
  destruct l as [|y l]; simpl in *; nia.
Qed.

Lemma pairs_within_app (c1 c2 : list nat) :
  pairs_within (c1 ++ c2)
  ≡ₚ pairs_within c1 ++ pairs_cross c1 c2 ++ pairs_within c2.
Proof.
  induction c1 as [|x c1 IH]; simpl; [done|].
  rewrite IH. unfold pairs_from. rewrite fmap_app, <- !app_assoc.
  f_equiv. apply Permutation_app_swap_app.
Qed.

Lemma candidates_perm c1 c2 : candidates c1 c2 ≡ₚ pairs_within (c1 ++ c2).
Proof.
  unfold candidates. rewrite pairs_within_app. f_equiv.
  apply Permutation_app_comm.
Qed.

Lemma length_candidates c1 c2 :
  length (candidates c1 c2)
  = (length c1 + length c2) * (length c1 + length c2 - 1) / 2.
Proof.
  rewrite candidates_perm, <- length_app, <- length_pairs_within.
  by rewrite Nat.mul_comm, Nat.div_mul.
Qed.

Lemma count_pair_kept a b n p1 p2 p3 d c1 c2 :
  count_pair a b (kept_edges n p1 p2 p3 d c1 c2)
  ≤ count_pair a b (candidates c1 c2).
Proof.
  unfold kept_edges, candidates. rewrite !count_pair_app.
  pose proof (count_pair_sample a b p1 d n (pairs_within c1)).
  pose proof (count_pair_sample a b p2 d (n + length (pairs_within c1))
                (pairs_within c2)).
  pose proof (count_pair_sample a b p3 d
                (n + length (pairs_within c1) + length (pairs_within c2))
                (pairs_cross c1 c2)).
  lia.
Qed.

Lemma elem_of_kept e n p1 p2 p3 d c1 c2 :
  e ∈ kept_edges n p1 p2 p3 d c1 c2 → e ∈ candidates c1 c2.
Proof.
  unfold kept_edges, candidates. rewrite !elem_of_app.
  intros [H|[H|H]]; apply sample_elem in H; auto.
Qed.

Lemma kept_edges_agree n p1 p2 p3 d1 d2 c1 c2 :
  agree d1 d2 n (n + length (candidates c1 c2)) →
  kept_edges n p1 p2 p3 d1 c1 c2 = kept_edges n p1 p2 p3 d2 c1 c2.
Proof.
  unfold kept_edges, candidates. rewrite !length_app. intros H.
  f_equal; [|f_equal]; apply sample_agree; intros k ? ?; apply H; lia.
Qed.

(** The communities of a run, as the assignment loop leaves them. *)
Lemma assign_range N d :
  let c := assign d 0 (range N) in
  c.1 ++ c.2 ≡ₚ range N ∧ NoDup (c.1 ++ c.2)
  ∧ length c.1 + length c.2 = N
  ∧ ∀ v, v ∈ c.1 ++ c.2 ↔ v < N.
Proof.
  intros c. pose proof (assign_perm d (range N) 0) as Hp. fold c in Hp.
  split; [done|]. split; [|split].
  - rewrite Hp. apply NoDup_seq.
  - rewrite <- length_app, Hp. unfold range. by rewrite length_seq.
  - intros v. rewrite Hp. unfold range. rewrite elem_of_seq. lia.
Qed.

Lemma run_graph_generation N p1 p2 p3 d :
  run (graph_generation N p1 p2 p3) d
  = Some (Graph (vertex_names N)
            (kept_edges N p1 p2 p3 d (assign d 0 (range N)).1
               (assign d 0 (range N)).2)).
Proof. unfold run. by rewrite graph_generation_run. Qed.

(** ** The shuffle *)

Lemma swap_items_run {A} (x : list A) i j d pos :
  swap_items x i j d pos = (fun r => (r, pos)) <$> swapped x i j.
Proof.
  unfold swap_items, swapped, getitem. run_monad. rewrite !subscript_nat.
  destruct (x !! j); [|done]. by destruct (x !! i).
Qed.

Lemma swapped_perm {A} (x x' : list A) i j :
  swapped x i j = Some x' → x' ≡ₚ x ∧ length x' = length x.
Proof.
  unfold swapped. destruct (x !! j) as [xj|] eqn:Hj; [|done].
  destruct (x !! i) as [xi|] eqn:Hi; [|done]. intros [= <-]. split.
  - by apply Permutation_insert_swap.
  - by rewrite !length_insert.
Qed.

Lemma swapped_is_Some {A} (x : list A) i j :
  i < length x → j < length x → is_Some (swapped x i j).
Proof.
  intros [xi Hi]%lookup_lt_is_Some_2 [xj Hj]%lookup_lt_is_Some_2.
  unfold swapped. rewrite Hi, Hj. by eexists.
Qed.

Lemma shuffle_step_run {A} (x : list A) i d pos :
  shuffle_step i x d pos
  = (fun r => (r, S pos)) <$> swapped x i (N.to_nat (d pos) mod (i + 1)).
Proof. unfold shuffle_step. run_monad. apply swap_items_run. Qed.

Lemma shuffle_loop {A} (idx : list nat) :
  ∀ (x : list A) d pos, Forall (fun i => i < length x) idx →
    ∃ x', for_each idx shuffle_step x d pos = Some (x', pos + length idx)
          ∧ x' ≡ₚ x.
Proof.
  induction idx as [|i idx IH]; intros x d pos His; simpl.
  - exists x. unfold ret. by rewrite Nat.add_0_r.
  - apply Forall_cons in His as [Hi His].
    unfold bind at 1. rewrite shuffle_step_run.
    assert (Hj : N.to_nat (d pos) mod (i + 1) < i + 1)
      by (apply Nat.mod_upper_bound; lia).
    destruct (swapped_is_Some x i (N.to_nat (d pos) mod (i + 1)))
      as [x1 Hx1]; [lia|lia|].
    rewrite Hx1. simpl. apply swapped_perm in Hx1 as [Hp Hl].
    destruct (IH x1 d (S pos)) as (x' & Hrun & Hp'); [by rewrite Hl|].
    exists x'. rewrite Hrun. split; [f_equal; f_equal; lia|by rewrite Hp'].
Qed.

Lemma shuffle_loop_agree {A} (idx : list nat) :
  ∀ (x : list A) d1 d2 pos, agree d1 d2 pos (pos + length idx) →
    for_each idx shuffle_step x d1 pos = for_each idx shuffle_step x d2 pos.
Proof.
  induction idx as [|i idx IH]; intros x d1 d2 pos H; simpl; [done|].
  unfold bind. rewrite !shuffle_step_run. rewrite (H pos) by (simpl; lia).
  destruct (swapped _ _ _) as [x1|]; simpl; [|done].
  apply IH. intros k ? ?. apply H; simpl in *; lia.
Qed.

Lemma shuffle_run N d :
  ∃ s, shuffle (range N) d 0 = Some (s, N - 1) ∧ s ≡ₚ range N.
Proof.
  unfold shuffle.
  destruct (shuffle_loop (rev (range_from 1 (length (range N))))
              (range N) d 0) as (s & Hs & Hp).
  - apply Forall_rev, Forall_forall. intros i. unfold range_from, range.
    rewrite elem_of_seq, length_seq. lia.
  - exists s. split; [|done]. rewrite Hs. do 2 f_equal.
    unfold range_from, range. rewrite length_rev, !length_seq. lia.
Qed.

Lemma shuffle_agree N d1 d2 :
  agree d1 d2 0 (N - 1) → shuffle (range N) d1 0 = shuffle (range N) d2 0.
Proof.
  intros H. unfold shuffle.
  apply shuffle_loop_agree. intros k ? Hk. apply H; [done|].
  revert Hk. unfold range_from, range. rewrite length_rev, !length_seq. lia.
Qed.

(** ** The edge loop of graph2.py *)

Lemma path_edges_short (s : list nat) : length s ≤ 1 → path_edges s = [].
Proof. destruct s as [|a [|b s]]; simpl; [done|done|lia]. Qed.

Lemma path_edges_cons a b s :
  path_edges (a :: b :: s) = [a; b] :: path_edges (b :: s).
Proof. done. Qed.

Lemma length_path_edges (s : list nat) :
  length (path_edges s) = length s - 1.
Proof.
  induction s as [|a [|b s] IH]; [done|done|].
  rewrite path_edges_cons. simpl length in *. lia.
Qed.

Lemma path_edges_lookup (s : list nat) i a b :
  s !! i = Some a → s !! S i = Some b → path_edges s !! i = Some [a; b].
Proof.
  revert i. induction s as [|x [|y s] IH]; intros i Ha Hb; [done|..].
  - by destruct i.
  - rewrite path_edges_cons. destruct i as [|i]; simplify_eq/=; [done|].
    by apply IH.
Qed.

Lemma path_loop (s : list nat) d m :
  ∀ k es pos, m = length s - 1 - k →
    for_each (seq k m)
      (fun i es =>
         let* a := getitem s (Z.of_nat i) in
         let* b := getitem s (Z.of_nat (i + 1)) in
         ret (es ++ [[a; b]]))
      es d pos
    = Some (es ++ path_edges (drop k s), pos).
Proof.
  induction m as [|m IH]; intros k es pos Hm; simpl.
  - rewrite path_edges_short by (rewrite length_drop; lia).
    unfold ret. by rewrite app_nil_r.
  - destruct (lookup_lt_is_Some_2 s k) as [a Ha]; [lia|].
    destruct (lookup_lt_is_Some_2 s (S k)) as [b Hb]; [lia|].
    rewrite (drop_S _ _ _ Ha), (drop_S _ _ _ Hb), path_edges_cons.
    rewrite <- (drop_S _ _ _ Hb). run_monad.
    rewrite (getitem_nat _ _ _ _ _ Ha).
    replace (k + 1) with (S k) by lia.
    rewrite (getitem_nat _ _ _ _ _ Hb).
    rewrite IH by lia. by rewrite <- app_assoc.
Qed.

Lemma graph2_run N d (s : list nat) pos :
  shuffle (range N) d 0 = Some (s, pos) → length s = N → 1 ≤ N →
  graph2 N d 0 = Some (Graph (vertex_names N) (cycle_edges s), pos).
Proof.
  intros Hs Hl HN. unfold graph2. unfold bind at 1. rewrite Hs.
  unfold bind at 1. unfold range at 1.
  rewrite (path_loop s d (N - 1) 0 [] pos) by lia.
  rewrite drop_0. simpl app.
  destruct (lookup_lt_is_Some_2 s (length s - 1)) as [a Ha]; [lia|].
  destruct (lookup_lt_is_Some_2 s 0) as [b Hb]; [lia|].
  unfold cycle_edges, closing_edge. rewrite Ha, Hb.
  unfold getitem. rewrite subscript_last.
  rewrite decide_False by (intros ->; simpl in *; lia).
  rewrite Ha. run_monad.
  change 0%Z with (Z.of_nat 0). rewrite subscript_nat, Hb. done.
Qed.

Lemma graph2_zero d : run (graph2 0) d = None.
Proof. done. Qed.

(** The shuffled order and the graph of a run with at least one vertex. *)
Lemma run_graph2 N d :
  1 ≤ N →
  ∃ s, shuffled N d = Some s ∧ s ≡ₚ range N
       ∧ run (graph2 N) d = Some (Graph (vertex_names N) (cycle_edges s)).
Proof.
  intros HN. destruct (shuffle_run N d) as (s & Hs & Hp).
  exists s. unfold shuffled, run. rewrite Hs. split; [done|]. split; [done|].
  rewrite (graph2_run N d s (N - 1) Hs); [done| |done].
  rewrite Hp. unfold range. by rewrite length_seq.
Qed.

Lemma length_cycle_edges (s : list nat) :
  s ≠ [] → length (cycle_edges s) = length s.
Proof.
  intros Hs. unfold cycle_edges, closing_edge.
  rewrite length_app, length_path_edges.
  destruct s as [|x s]; [done|].
  destruct (lookup_lt_is_Some_2 (x :: s) (length (x :: s) - 1)) as [a ->];
    simpl; lia.
Qed.

Lemma cycle_edges_lookup (s : list nat) i a b :
  s !! i = Some a → s !! ((i + 1) mod length s) = Some b →
  cycle_edges s !! i = Some [a; b].
Proof.
  intros Ha Hb. pose proof (lookup_lt_Some _ _ _ Ha) as Hi.
  unfold cycle_edges. destruct (decide (i + 1 < length s)) as [Hlt|Hge].
  - rewrite Nat.mod_small in Hb by done.
    rewrite lookup_app_l by (rewrite length_path_edges; lia).
    apply path_edges_lookup; [done|]. by replace (S i) with (i + 1) by lia.
  - assert (i + 1 = length s) as Heq by lia.
    rewrite Heq, Nat.Div0.mod_same in Hb.
    rewrite lookup_app_r by (rewrite length_path_edges; lia).
    rewrite length_path_edges.
    replace (i - (length s - 1)) with 0 by lia.
    unfold closing_edge. replace (length s - 1) with i by lia.
    by rewrite Ha, Hb.
Qed.

Lemma cycle_edges_lookup_inv (s : list nat) i e :
  cycle_edges s !! i = Some e →
  ∃ a b, s !! i = Some a ∧ s !! ((i + 1) mod length s) = Some b
         ∧ e = [a; b].
Proof.
  intros He. destruct s as [|x s]; [by destruct i|].
  pose proof (lookup_lt_Some _ _ _ He) as Hi.
  rewrite length_cycle_edges in Hi by done.
  destruct (lookup_lt_is_Some_2 (x :: s) i) as [a Ha]; [done|].
  destruct (lookup_lt_is_Some_2 (x :: s) ((i + 1) mod length (x :: s)))
    as [b Hb]; [apply Nat.mod_upper_bound; simpl; lia|].
  exists a, b. split; [done|]. split; [done|].
  rewrite (cycle_edges_lookup _ _ _ _ Ha Hb) in He. congruence.
Qed.

(** ** Counting on the cycle *)

Lemma succ_mod n i :
  i < n → (i + 1) mod n = if decide (i + 1 = n) then 0 else i + 1.
Proof.
  intros Hi. case_decide as H.
  - rewrite H. apply Nat.Div0.mod_same.
  - apply Nat.mod_small. lia.
Qed.

Lemma concat_path_edges (t : list nat) :
  ∀ a z, (a :: t) !! length t = Some z →
    concat (path_edges (a :: t)) ++ [z] ≡ₚ (a :: t) ++ t.
Proof.
  induction t as [|b t IH]; intros a z Hz.
  - simpl in *. by simplify_eq.
  - rewrite path_edges_cons. simpl concat. simpl app.
    do 2 f_equiv. rewrite (IH b z) by done.
    simpl. apply Permutation_middle.
Qed.

Lemma concat_cycle_edges (s : list nat) :
  s ≠ [] → concat (cycle_edges s) ≡ₚ s ++ s.
Proof.
  destruct s as [|a t]; [done|]. intros _.
  destruct (lookup_lt_is_Some_2 (a :: t) (length t)) as [z Hz];
    [simpl; lia|].
  unfold cycle_edges, closing_edge.
  replace (length (a :: t) - 1) with (length t) by (simpl; lia).
  rewrite Hz. simpl lookup. rewrite concat_app. simpl concat at 2.
  change [z; a] with ([z] ++ [a]).
  rewrite app_assoc, (concat_path_edges t a z Hz).
  rewrite <- app_assoc. f_equiv. symmetry. apply Permutation_cons_append.
Qed.

Lemma incident_endpoint v (es : list (list nat)) :
  (∀ e, e ∈ es → NoDup e) → incident_edges v es = endpoint_count v es.
Proof.
  unfold incident_edges, endpoint_count.
  induction es as [|e es IH]; intros Hnd; [done|].
  simpl concat. rewrite filter_app, length_app, filter_cons.
  rewrite occurrences_NoDup by (apply Hnd; left).
  rewrite <- IH by (intros; apply Hnd; by right).
  by case_decide.
Qed.

Lemma filter_at_most_once {A} (P : A → Prop) `{∀ x, Decision (P x)}
    (l : list A) :
  (∀ i j x y, l !! i = Some x → l !! j = Some y → P x → P y → i = j) →
  length (filter P l) ≤ 1.
Proof.
  induction l as [|x l IH]; intros Hu; [simpl; lia|].
  rewrite filter_cons. case_decide as HP.
  - simpl length. rewrite filter_length_none; [lia|].
    intros y [j Hj]%list_elem_of_lookup HPy.
    by specialize (Hu 0 (S j) x y eq_refl Hj HP HPy).
  - apply IH. intros i j y z Hi Hj Hy Hz.
    by specialize (Hu (S i) (S j) y z Hi Hj Hy Hz) as [= ->].
Qed.

(** The cycle over a duplicate-free order [s]. *)
Section Cycle.

Variable s : list nat.
Hypothesis s_NoDup : NoDup s.

Lemma endpoint_count_cycle v :
  v ∈ s → endpoint_count v (cycle_edges s) = 2.
Proof.
  pose proof s_NoDup as Hnd. intros Hv. unfold endpoint_count.
  rewrite concat_cycle_edges by (intros ->; by apply elem_of_nil in Hv).
  rewrite filter_app, length_app, occurrences_NoDup by done.
  by rewrite decide_True.
Qed.

Lemma cycle_edges_NoDup e :
  2 ≤ length s → e ∈ cycle_edges s → NoDup e.
Proof.
  pose proof s_NoDup as Hnd. intros Hl [i Hi]%list_elem_of_lookup.
  apply cycle_edges_lookup_inv in Hi as (a & b & Ha & Hb & ->).
  pose proof (lookup_lt_Some _ _ _ Ha) as Hlt.
  apply NoDup_cons. split; [|apply NoDup_singleton].
  rewrite list_elem_of_singleton. intros ->.
  pose proof (NoDup_lookup _ _ _ _ Hnd Ha Hb) as Heq.
  rewrite succ_mod in Heq by done. case_decide; lia.
Qed.

Lemma count_pair_cycle a b :
  length s ≠ 2 → count_pair a b (cycle_edges s) ≤ 1.
Proof.
  pose proof s_NoDup as Hnd. intros Hl. apply filter_at_most_once. intros i j x y Hi Hj Hx Hy.
  apply cycle_edges_lookup_inv in Hi as (a1 & b1 & Ha1 & Hb1 & ->).
  apply cycle_edges_lookup_inv in Hj as (a2 & b2 & Ha2 & Hb2 & ->).
  pose proof (lookup_lt_Some _ _ _ Ha1) as Hilt.
  pose proof (lookup_lt_Some _ _ _ Ha2) as Hjlt.
  apply joins_pair in Hx, Hy.
  destruct Hx as [[-> ->]|[-> ->]], Hy as [[-> ->]|[-> ->]].
  - apply (NoDup_lookup _ _ _ _ Hnd Ha1 Ha2).
  - pose proof (NoDup_lookup _ _ _ _ Hnd Ha1 Hb2) as H1.
    pose proof (NoDup_lookup _ _ _ _ Hnd Ha2 Hb1) as H2.
    rewrite succ_mod in H1, H2 by done. repeat case_decide; lia.
  - pose proof (NoDup_lookup _ _ _ _ Hnd Ha1 Hb2) as H1.
    pose proof (NoDup_lookup _ _ _ _ Hnd Ha2 Hb1) as H2.
    rewrite succ_mod in H1, H2 by done. repeat case_decide; lia.
  - apply (NoDup_lookup _ _ _ _ Hnd Ha1 Ha2).
Qed.

End Cycle.

Lemma vertex_names_lookup N a :
  a < N → vertex_names N !! a = Some (format_int (a + 1)).
Proof.
  intros Ha. unfold vertex_names, range.
  by rewrite list_lookup_fmap, lookup_seq_lt.
Qed.

Lemma length_vertex_names N : length (vertex_names N) = N.
Proof. unfold vertex_names, range. by rewrite length_fmap, length_seq. Qed.

Lemma shuffled_range N (s : list nat) :
  s ≡ₚ range N → NoDup s ∧ length s = N ∧ ∀ v, v ∈ s ↔ v < N.
Proof.
  intros Hp. split; [|split].
  - rewrite Hp. apply NoDup_seq.
  - rewrite Hp. unfold range. by rewrite length_seq.
  - intros v. rewrite Hp. unfold range. rewrite elem_of_seq. lia.
Qed.

(** * The cycle generator *)

(** C1: for every [N >= 1] and every run of the shuffle, the shuffled
    order [s] is a permutation of the vertex indices, the run succeeds
    with [N] edges, edge [i] joins [s[i]] and [s[i+1]] for [i < N - 1],
    and the last edge joins the last and the first element of [s]: one
    closed cycle through every vertex once. *)
Theorem graph2_cycle N d :
  1 ≤ N →
  ∃ s g,
    shuffled N d = Some s ∧ s ≡ₚ range N ∧ NoDup s ∧ (∀ v, v ∈ s ↔ v < N)
    ∧ run (graph2 N) d = Some g
    ∧ length (edges g) = N
    ∧ (∀ i, i < N - 1 →
         ∃ a b, s !! i = Some a ∧ s !! (i + 1) = Some b
                ∧ edges g !! i = Some [a; b])
    ∧ (∃ a b, s !! (N - 1) = Some a ∧ s !! 0 = Some b
              ∧ edges g !! (N - 1) = Some [a; b]).
Proof.
  intros HN. destruct (run_graph2 N d HN) as (s & Hs & Hp & Hrun).
  destruct (shuffled_range N s Hp) as (Hnd & Hl & Hin).
  exists s, (Graph (vertex_names N) (cycle_edges s)).
  assert (Hne : s ≠ []) by (intros ->; simpl in *; lia).
  repeat split; try done; try apply Hin.
  - simpl. by rewrite length_cycle_edges.
  - intros i Hi.
    destruct (lookup_lt_is_Some_2 s i) as [a Ha]; [lia|].
    destruct (lookup_lt_is_Some_2 s (i + 1)) as [b Hb]; [lia|].
    exists a, b. split; [done|]. split; [done|]. simpl.
    apply cycle_edges_lookup; [done|]. by rewrite Nat.mod_small by lia.
  - destruct (lookup_lt_is_Some_2 s (N - 1)) as [a Ha]; [lia|].
    destruct (lookup_lt_is_Some_2 s 0) as [b Hb]; [lia|].
    exists a, b. split; [done|]. split; [done|]. simpl.
    apply cycle_edges_lookup; [done|].
    replace (N - 1 + 1) with (length s) by lia.
    by rewrite Nat.Div0.mod_same.
Qed.

Lemma graph2_cycle_witness :
  1 ≤ 4 ∧
  ∃ s g,
    shuffled 4 example_draws = Some s ∧ s ≡ₚ range 4 ∧ NoDup s
    ∧ (∀ v, v ∈ s ↔ v < 4)
    ∧ run (graph2 4) example_draws = Some g
    ∧ length (edges g) = 4
    ∧ (∀ i, i < 4 - 1 →
         ∃ a b, s !! i = Some a ∧ s !! (i + 1) = Some b
                ∧ edges g !! i = Some [a; b])
    ∧ (∃ a b, s !! (4 - 1) = Some a ∧ s !! 0 = Some b
              ∧ edges g !! (4 - 1) = Some [a; b]).
Proof. split; [lia | apply (graph2_cycle 4 example_draws); lia]. Defined.

(** The spec's example: shuffled order [[2; 0; 3; 1]] over four vertices. *)
Example graph2_example :
  shuffled 4 example_draws = Some [2; 0; 3; 1]
  ∧ run (graph2 4) example_draws
    = Some (Graph ["1"; "2"; "3"; "4"]%string [[2; 0]; [0; 3]; [3; 1]; [1; 2]]).
Proof. split; reflexivity. Qed.

(** C2, as the spec states it, fails: on the spec's own example the
    edges are pairs of integers, none a pair of vertex strings. *)
Lemma graph2_edges_not_strings :
  ¬ (∀ N d g, 1 ≤ N → run (graph2 N) d = Some g →
       ∀ e, e ∈ edges_array (document g) →
         ∃ s t, e = JArr [JStr s; JStr t]
                ∧ s ∈ vertices g ∧ t ∈ vertices g).
Proof.
  intros H.
  destruct (H 4 example_draws _ ltac:(lia) (proj2 graph2_example)
              (JArr [JNum 2; JNum 0])) as (s & t & Heq & _).
  - left.
  - discriminate Heq.
Qed.

(** C2, amended: for every [N >= 1] each edge of the document is a
    2-element array of integers, the zero-based positions in the
    vertices array of the vertices it joins: index [a], below [N],
    stands for the vertex named [a + 1]. *)
Theorem graph2_edges_are_indices N d :
  1 ≤ N →
  ∃ g, run (graph2 N) d = Some g
       ∧ vertices_array (document g) = JStr <$> vertex_names N
       ∧ ∀ e, e ∈ edges_array (document g) →
           ∃ a b : nat,
             e = JArr [JNum (Z.of_nat a); JNum (Z.of_nat b)]
             ∧ a < N ∧ b < N
             ∧ vertices g !! a = Some (format_int (a + 1))
             ∧ vertices g !! b = Some (format_int (b + 1)).
Proof.
  intros HN. destruct (run_graph2 N d HN) as (s & Hs & Hp & Hrun).
  destruct (shuffled_range N s Hp) as (Hnd & Hl & Hin).
  eexists. split; [done|]. split; [done|].
  intros e. unfold edges_array, document. simpl.
  intros (e' & -> & [i Hi]%list_elem_of_lookup)%list_elem_of_fmap.
  apply cycle_edges_lookup_inv in Hi as (a & b & Ha & Hb & ->).
  apply list_elem_of_lookup_2, Hin in Ha, Hb.
  exists a, b. split; [done|].
  by rewrite !vertex_names_lookup by done.
Qed.

Lemma graph2_edges_are_indices_witness :
  1 ≤ 4 ∧
  ∃ g, run (graph2 4) example_draws = Some g
       ∧ vertices_array (document g) = JStr <$> vertex_names 4
       ∧ ∀ e, e ∈ edges_array (document g) →
           ∃ a b : nat,
             e = JArr [JNum (Z.of_nat a); JNum (Z.of_nat b)]
             ∧ a < 4 ∧ b < 4
             ∧ vertices g !! a = Some (format_int (a + 1))
             ∧ vertices g !! b = Some (format_int (b + 1)).
Proof.
  split; [lia | apply (graph2_edges_are_indices 4 example_draws); lia].
Defined.

(** With a single vertex the cycle is one loop edge. *)
Example graph2_single_vertex :
  run (graph2 1) zero_draws = Some (Graph ["1"%string] [[0; 0]]).
Proof. reflexivity. Qed.

(** C3, as the spec states it, fails at [N = 1]: the only vertex is an
    endpoint of the only edge, not of two edges. *)
Lemma graph2_single_vertex_incidence :
  ¬ (∀ N d g, 1 ≤ N → run (graph2 N) d = Some g →
       length (vertices g) = N ∧ length (edges g) = N
       ∧ ∀ v, v < N → incident_edges v (edges g) = 2).
Proof.
  intros H.
  destruct (H 1 zero_draws _ ltac:(lia) graph2_single_vertex) as (_ & _ & Hv).
  specialize (Hv 0 ltac:(lia)). vm_compute in Hv. discriminate Hv.
Qed.

(** C3, amended: for every [N >= 1] there are [N] vertices and [N]
    edges, each vertex index occurs twice among the edge endpoints, and
    for [N >= 2] it is an endpoint of exactly two edges. *)
Theorem graph2_counts N d :
  1 ≤ N →
  ∃ g, run (graph2 N) d = Some g
       ∧ length (vertices g) = N ∧ length (edges g) = N
       ∧ (∀ v, v < N → endpoint_count v (edges g) = 2)
       ∧ (2 ≤ N → ∀ v, v < N → incident_edges v (edges g) = 2).
Proof.
  intros HN. destruct (run_graph2 N d HN) as (s & Hs & Hp & Hrun).
  destruct (shuffled_range N s Hp) as (Hnd & Hl & Hin).
  eexists. split; [done|]. simpl.
  split; [apply length_vertex_names|].
  split; [rewrite length_cycle_edges; [done|intros ->; simpl in *; lia]|].
  split.
  - intros v Hv. apply endpoint_count_cycle; [done|by apply Hin].
  - intros HN2 v Hv. rewrite incident_endpoint.
    + apply endpoint_count_cycle; [done|by apply Hin].
    + intros e. apply cycle_edges_NoDup; [done|lia].
Qed.

Lemma graph2_counts_witness :
  1 ≤ 4 ∧
  ∃ g, run (graph2 4) example_draws = Some g
       ∧ length (vertices g) = 4 ∧ length (edges g) = 4
       ∧ (∀ v, v < 4 → endpoint_count v (edges g) = 2)
       ∧ (2 ≤ 4 → ∀ v, v < 4 → incident_edges v (edges g) = 2).
Proof. split; [lia | apply (graph2_counts 4 example_draws); lia]. Defined.

(** With two vertices both edges join the same two vertices. *)
Example graph2_two_vertices :
  run (graph2 2) zero_draws = Some (Graph ["1"; "2"]%string [[1; 0]; [0; 1]]).
Proof. reflexivity. Qed.

(** C6, as the spec states it, fails at [N = 2]: the pair of the two
    vertices occurs twice. *)
Lemma graph2_two_vertices_duplicate :
  ¬ (∀ N d g, run (graph2 N) d = Some g →
       ∀ a b, count_pair a b (edges g) ≤ 1).
Proof.
  intros H. specialize (H 2 zero_draws _ graph2_two_vertices 0 1).
  vm_compute in H. lia.
Qed.

(** C6, amended: for every [N] other than 2, no pair of endpoints occurs
    twice in the edge list of a run; a run with [N >= 1] vertices
    succeeds. *)
Theorem graph2_no_duplicates N d :
  N ≠ 2 →
  (1 ≤ N → is_Some (run (graph2 N) d))
  ∧ ∀ g, run (graph2 N) d = Some g →
      ∀ a b, count_pair a b (edges g) ≤ 1.
Proof.
  intros HN. destruct (decide (N = 0)) as [->|H0].
  { split; [lia|]. by rewrite graph2_zero. }
  destruct (run_graph2 N d) as (s & Hs & Hp & Hrun); [lia|].
  destruct (shuffled_range N s Hp) as (Hnd & Hl & Hin).
  rewrite Hrun. split; [done|]. intros g [= <-] a b. simpl.
  apply count_pair_cycle; [done|lia].
Qed.

Lemma graph2_no_duplicates_witness :
  4 ≠ 2 ∧
  ((1 ≤ 4 → is_Some (run (graph2 4) example_draws))
   ∧ ∀ g, run (graph2 4) example_draws = Some g →
       ∀ a b, count_pair a b (edges g) ≤ 1).
Proof. split; [lia | apply (graph2_no_duplicates 4 example_draws); lia]. Defined.

(** * The community generator *)

(** A run with every probability 1: vertices 0 and 1 fall in the first
    community, vertex 2 in the second. *)
Example graph_generation_example :
  communities 3 half_draws = Some ([0; 1], [2])
  ∧ run (graph_generation 3 1 1 1) half_draws
    = Some (Graph ["1"; "2"; "3"]%string [[0; 1]; [0; 2]; [1; 2]]).
Proof. split; reflexivity. Qed.

(** C4: for every [N] and all draws, the two communities together hold
    each vertex index below [N] exactly once and nothing else: every
    index is in exactly one community. *)
Theorem communities_partition N d :
  ∃ c1 c2,
    communities N d = Some (c1, c2)
    ∧ c1 ++ c2 ≡ₚ range N
    ∧ NoDup (c1 ++ c2)
    ∧ (∀ v, v < N → (v ∈ c1 ∧ ¬ v ∈ c2) ∨ (¬ v ∈ c1 ∧ v ∈ c2))
    ∧ (∀ v, v ∈ c1 ∨ v ∈ c2 → v < N).
Proof.
  rewrite communities_run.
  destruct (assign_range N d) as (Hp & Hnd & Hl & Hin).
  destruct (assign d 0 (range N)) as [c1 c2]. simpl in *.
  exists c1, c2. split; [done|]. split; [done|]. split; [done|].
  apply NoDup_app in Hnd as (_ & Hdisj & _).
  split.
  - intros v Hv. apply Hin, elem_of_app in Hv as [Hv|Hv].
    + left. split; [done|by apply Hdisj].
    + right. split; [|done]. intros Hv1. by apply (Hdisj v).
  - intros v Hv. by apply Hin, elem_of_app.
Qed.

(** C5: for every [N >= 2] and all draws, with all three probabilities
    1 the run yields [N * (N - 1) / 2] edges, each joining two distinct
    vertex indices, and each pair of distinct indices is joined by
    exactly one edge. *)
Theorem graph_generation_complete N d :
  2 ≤ N →
  ∃ g, run (graph_generation N 1 1 1) d = Some g
       ∧ length (edges g) = N * (N - 1) / 2
       ∧ (∀ a b, a < N → b < N → a ≠ b → count_pair a b (edges g) = 1)
       ∧ (∀ e, e ∈ edges g → ∃ a b, e = [a; b] ∧ a ≠ b ∧ a < N ∧ b < N).
Proof.
  intros _. rewrite run_graph_generation. eexists. split; [done|]. simpl.
  destruct (assign_range N d) as (Hp & Hnd & Hl & Hin).
  destruct (assign d 0 (range N)) as [c1 c2]. simpl in *.
  assert (Hk : kept_edges N 1 1 1 d c1 c2 = candidates c1 c2).
  { unfold kept_edges, candidates. by rewrite !sample_all. }
  rewrite Hk. split; [|split].
  - by rewrite length_candidates, Hl.
  - intros a b Ha Hb Hab.
    rewrite (count_pair_perm _ _ _ _ (candidates_perm c1 c2)).
    rewrite count_pair_within by done.
    rewrite decide_True; [done|]. by rewrite !Hin.
  - intros e He. rewrite candidates_perm in He.
    apply elem_of_pairs_within in He as (a & b & -> & Hab & Ha & Hb); [|done].
    exists a, b. by rewrite <- !Hin.
Qed.

Lemma graph_generation_complete_witness :
  2 ≤ 5 ∧
  ∃ g, run (graph_generation 5 1 1 1) example_draws = Some g
       ∧ length (edges g) = 5 * (5 - 1) / 2
       ∧ (∀ a b, a < 5 → b < 5 → a ≠ b → count_pair a b (edges g) = 1)
       ∧ (∀ e, e ∈ edges g → ∃ a b, e = [a; b] ∧ a ≠ b ∧ a < 5 ∧ b < 5).
Proof.
  split; [lia | apply (graph_generation_complete 5 example_draws); lia].
Defined.

(** C7: for every [N] and all draws, with all three probabilities 0 the
    run yields no edge. *)
Theorem graph_generation_empty N d :
  ∃ g, run (graph_generation N 0 0 0) d = Some g ∧ edges g = [].
Proof.
  rewrite run_graph_generation. eexists. split; [done|]. simpl.
  unfold kept_edges. by rewrite !sample_none.
Qed.

(** C9: for every [N], all probabilities and all draws, each edge of a
    run has two endpoints, distinct and both vertex indices below [N]. *)
Theorem graph_generation_no_self_loops N p1 p2 p3 d :
  ∃ g, run (graph_generation N p1 p2 p3) d = Some g
       ∧ ∀ e, e ∈ edges g → ∃ a b, e = [a; b] ∧ a ≠ b ∧ a < N ∧ b < N.
Proof.
  rewrite run_graph_generation. eexists. split; [done|]. simpl.
  destruct (assign_range N d) as (Hp & Hnd & Hl & Hin).
  intros e He. apply elem_of_kept in He. rewrite candidates_perm in He.
  apply elem_of_pairs_within in He as (a & b & -> & Hab & Ha & Hb); [|done].
  exists a, b. by rewrite <- !Hin.
Qed.

(** C10: for every [N], all probabilities and all draws, no pair of
    vertex indices is joined by more than one edge of a run. *)
Theorem graph_generation_no_duplicates N p1 p2 p3 d :
  ∃ g, run (graph_generation N p1 p2 p3) d = Some g
       ∧ ∀ a b, count_pair a b (edges g) ≤ 1.
Proof.
  rewrite run_graph_generation. eexists. split; [done|]. simpl.
  destruct (assign_range N d) as (Hp & Hnd & Hl & Hin).
  intros a b. etrans; [apply count_pair_kept|].
  rewrite (count_pair_perm _ _ _ _ (candidates_perm _ _)).
  rewrite count_pair_within by done. case_decide; lia.
Qed.

(** * Both generators *)

Lemma graph2_agree N d1 d2 :
  agree d1 d2 0 (N - 1) → run (graph2 N) d1 = run (graph2 N) d2.
Proof.
  intros H. destruct (decide (N = 0)) as [->|HN]; [done|].
  destruct (run_graph2 N d1) as (s1 & Hs1 & _ & ->); [lia|].
  destruct (run_graph2 N d2) as (s2 & Hs2 & _ & ->); [lia|].
  unfold shuffled, run in Hs1, Hs2.
  rewrite (shuffle_agree N d1 d2 H), Hs2 in Hs1. by simplify_eq.
Qed.

Lemma graph_generation_agree N p1 p2 p3 d1 d2 :
  agree d1 d2 0 (N + N * (N - 1) / 2) →
  run (graph_generation N p1 p2 p3) d1 = run (graph_generation N p1 p2 p3) d2.
Proof.
  intros H. rewrite !run_graph_generation.
  destruct (assign_range N d1) as (_ & _ & Hl & _).
  assert (Ha : assign d1 0 (range N) = assign d2 0 (range N)).
  { apply assign_agree. unfold range. rewrite length_seq.
    intros k ? ?. apply H; lia. }
  rewrite <- Ha. do 2 f_equal. apply kept_edges_agree.
  rewrite length_candidates, Hl. intros k ? ?. apply H; lia.
Qed.

(** C8: each generator is a function of the draws it reads: two runs
    whose draw sequences agree on every position a run can read (the
    first [N + N * (N - 1) / 2]) write the same document. *)
Theorem generators_deterministic N p1 p2 p3 d1 d2 :
  agree d1 d2 0 (N + N * (N - 1) / 2) →
  document <$> run (graph2 N) d1 = document <$> run (graph2 N) d2
  ∧ document <$> run (graph_generation N p1 p2 p3) d1
    = document <$> run (graph_generation N p1 p2 p3) d2.
Proof.
  intros H. split.
  - rewrite (graph2_agree N d1 d2); [done|].
    intros k ? ?. apply H; lia.
  - by rewrite (graph_generation_agree N p1 p2 p3 d1 d2).
Qed.

Lemma generators_deterministic_witness :
  agree example_draws (fun k => if k <? 9 then example_draws k else 5%N)
    0 (3 + 3 * (3 - 1) / 2)
  ∧ (document <$> run (graph2 3) example_draws
     = document <$> run (graph2 3)
                      (fun k => if k <? 9 then example_draws k else 5%N)
     ∧ document <$> run (graph_generation 3 float_0_01 float_0_01 float_0_001)
                      example_draws
       = document <$> run (graph_generation 3 float_0_01 float_0_01 float_0_001)
                        (fun k => if k <? 9 then example_draws k else 5%N)).
Proof.
  assert (H : agree example_draws
                (fun k => if k <? 9 then example_draws k else 5%N)
                0 (3 + 3 * (3 - 1) / 2)).
  { intros k _ Hk. change (3 + 3 * (3 - 1) / 2) with 6 in Hk.
    destruct (Nat.ltb_spec k 9); [done|lia]. }
  split; [exact H | exact (generators_deterministic 3 _ _ _ _ _ H)].
Defined.


(** * Further properties of the community generator *)

Lemma assign_seq d pos n :
  assign d pos (seq pos n)
  = (filter (fun v => in_first d v = true) (seq pos n),
     filter (fun v => in_first d v = false) (seq pos n)).
Proof.
  revert pos. induction n as [|n IH]; intros pos; [done|].
  simpl seq. simpl assign. rewrite IH, !filter_cons. fold (in_first d pos).
  by destruct (in_first d pos).
Qed.

(** The [v]-th call of [random.random()] decides vertex [v]: the first
    community is the vertices whose draw is below [0.5], the second the
    others, both in increasing order. *)
Theorem communities_by_draw N d :
  communities N d
  = Some (filter (fun v => in_first d v = true) (range N),
          filter (fun v => in_first d v = false) (range N)).
Proof. rewrite communities_run. unfold range. by rewrite assign_seq. Qed.



Lemma elem_of_pairs_cross e ca cb :
  e ∈ pairs_cross ca cb ↔ ∃ x y, e = [x; y] ∧ x ∈ ca ∧ y ∈ cb.
Proof.
  induction ca as [|x ca IH]; simpl.
  - split; [by intros ?%elem_of_nil|]. by intros (? & ? & _ & ?%elem_of_nil & _).
  - rewrite elem_of_app, elem_of_pairs_from, IH. split.
    + intros [(y & -> & Hy)|(x' & y & -> & Hx & Hy)].
      * exists x, y. split; [done|]. split; [by left|done].
      * exists x', y. split; [done|]. split; [by right|done].
    + intros (x' & y & -> & [->|Hx]%elem_of_cons & Hy).
      * left. by exists y.
      * right. by exists x', y.
Qed.

(** The candidates within an increasing community list the smaller
    endpoint first. *)
Lemma elem_of_pairs_within_filter (P : nat → Prop) `{∀ v, Decision (P v)}
    a n e :
  e ∈ pairs_within (filter P (seq a n)) →
  ∃ x y, e = [x; y] ∧ x < y
         ∧ x ∈ filter P (seq a n) ∧ y ∈ filter P (seq a n).
Proof.
  revert a. induction n as [|n IH]; intros a; [by intros ?%elem_of_nil|].
  simpl seq. rewrite filter_cons. case_decide as HP.
  - simpl. rewrite elem_of_app, elem_of_pairs_from.
    intros [(y & -> & Hy)|He].
    + exists a, y. split; [done|].
      pose proof Hy as Hy'. apply list_elem_of_filter in Hy' as [_ Hy'].
      apply elem_of_seq in Hy'. split; [lia|]. split; [by left|by right].
    + destruct (IH _ He) as (x & y & -> & Hxy & Hx & Hy).
      exists x, y. split; [done|]. split; [done|]. split; by right.
  - intros He. destruct (IH _ He) as (x & y & -> & Hxy & Hx & Hy).
    by exists x, y.
Qed.

(** The edge list is laid out in three runs: the edges within the first
    community, then those within the second, each with its smaller
    endpoint first, then the edges across, each from a vertex of the
    first community to a vertex of the second. *)
Theorem graph_generation_layout N p1 p2 p3 d :
  ∃ c1 c2 g E1 E2 E3,
    communities N d = Some (c1, c2)
    ∧ run (graph_generation N p1 p2 p3) d = Some g
    ∧ edges g = E1 ++ E2 ++ E3
    ∧ (∀ e, e ∈ E1 → ∃ a b, e = [a; b] ∧ a < b ∧ a ∈ c1 ∧ b ∈ c1)
    ∧ (∀ e, e ∈ E2 → ∃ a b, e = [a; b] ∧ a < b ∧ a ∈ c2 ∧ b ∈ c2)
    ∧ (∀ e, e ∈ E3 → ∃ a b, e = [a; b] ∧ a ∈ c1 ∧ b ∈ c2).
Proof.
  rewrite communities_run, run_graph_generation.
  unfold range. rewrite assign_seq. simpl fst. simpl snd.
  do 3 eexists. unfold kept_edges. do 3 eexists.
  split; [done|]. split; [done|]. split; [done|].
  split; [|split]; intros e He%sample_elem.
  - by apply elem_of_pairs_within_filter.
  - by apply elem_of_pairs_within_filter.
  - by apply elem_of_pairs_cross.
Qed.

(** With an inter-community probability of 0 or less no edge crosses:
    every edge joins two vertices of the same community. *)
Theorem graph_generation_disconnected N p1 p2 p3 d :
  (p3 <= 0)%Q →
  ∃ c1 c2 g,
    communities N d = Some (c1, c2)
    ∧ run (graph_generation N p1 p2 p3) d = Some g
    ∧ ∀ e, e ∈ edges g →
        ∃ a b, e = [a; b] ∧ a ≠ b
               ∧ ((a ∈ c1 ∧ b ∈ c1) ∨ (a ∈ c2 ∧ b ∈ c2)).
Proof.
  intros Hp. rewrite communities_run, run_graph_generation.
  unfold range. rewrite assign_seq. simpl fst. simpl snd.
  do 3 eexists. split; [done|]. split; [done|]. simpl.
  unfold kept_edges. rewrite (sample_none p3) by done.
  intros e. rewrite app_nil_r, elem_of_app.
  intros [He%sample_elem|He%sample_elem];
    apply elem_of_pairs_within_filter in He as (a & b & -> & Hab & Ha & Hb);
    exists a, b; (split; [done|]); (split; [lia|]); auto.
Qed.

Lemma graph_generation_disconnected_witness :
  (0 <= 0)%Q ∧
  ∃ c1 c2 g,
    communities 4 half_draws = Some (c1, c2)
    ∧ run (graph_generation 4 1 1 0) half_draws = Some g
    ∧ ∀ e, e ∈ edges g →
        ∃ a b, e = [a; b] ∧ a ≠ b
               ∧ ((a ∈ c1 ∧ b ∈ c1) ∨ (a ∈ c2 ∧ b ∈ c2)).
Proof.
  split; [apply Qle_refl|].
  apply (graph_generation_disconnected 4 1 1 0 half_draws). apply Qle_refl.
Defined.

Lemma count_pair_none a b (es : list (list nat)) :
  (∀ e, e ∈ es → joins a b e ≠ true) → count_pair a b es = 0.
Proof. intros H. unfold count_pair. by apply filter_length_none. Qed.

Lemma count_pair_cross_none a b ca cb :
  a ∉ cb → b ∉ cb → count_pair a b (pairs_cross ca cb) = 0.
Proof.
  intros Ha Hb. apply count_pair_none.
  intros e (x & y & -> & _ & Hy)%elem_of_pairs_cross.
  rewrite joins_pair. intros [[_ ->]|[_ ->]]; done.
Qed.

Lemma count_pair_within_none a b (c : list nat) :
  NoDup c → a ∉ c ∨ b ∉ c → count_pair a b (pairs_within c) = 0.
Proof.
  intros Hnd H. rewrite count_pair_within by done.
  rewrite decide_False; [done|]. intros (_ & ? & ?). by destruct H.
Qed.

Lemma count_pair_sample_none a b p d pos xs :
  count_pair a b xs = 0 → count_pair a b (sample p d pos xs) = 0.
Proof. intros H. pose proof (count_pair_sample a b p d pos xs). lia. Qed.

(** With a probability of 1 or more within the first community, that
    community is a clique: exactly one edge joins each two distinct
    members, whatever the other two probabilities. *)
Theorem graph_generation_clique1 N p1 p2 p3 d :
  (1 <= p1)%Q →
  ∃ c1 c2 g,
    communities N d = Some (c1, c2)
    ∧ run (graph_generation N p1 p2 p3) d = Some g
    ∧ ∀ a b, a ∈ c1 → b ∈ c1 → a ≠ b → count_pair a b (edges g) = 1.
Proof.
  intros Hp. rewrite communities_run, run_graph_generation.
  destruct (assign_range N d) as (_ & Hnd & _ & _).
  destruct (assign d 0 (range N)) as [c1 c2]. simpl in Hnd.
  exists c1, c2. eexists. split; [done|]. split; [done|]. simpl.
  apply NoDup_app in Hnd as (Hnd1 & Hdisj & Hnd2).
  intros a b Ha Hb Hab. unfold kept_edges.
  rewrite (sample_all p1) by done. rewrite !count_pair_app.
  rewrite count_pair_within, decide_True by done.
  rewrite count_pair_sample_none, count_pair_sample_none; [done|..].
  - apply count_pair_cross_none; by apply Hdisj.
  - apply count_pair_within_none; [done|]. left. by apply Hdisj.
Qed.

Lemma graph_generation_clique1_witness :
  (1 <= 1)%Q ∧
  ∃ c1 c2 g,
    communities 4 half_draws = Some (c1, c2)
    ∧ run (graph_generation 4 1 float_0_01 float_0_001) half_draws = Some g
    ∧ ∀ a b, a ∈ c1 → b ∈ c1 → a ≠ b → count_pair a b (edges g) = 1.
Proof.
  split; [apply Qle_refl|].
  apply (graph_generation_clique1 4 1 float_0_01 float_0_001 half_draws).
  apply Qle_refl.
Defined.



Lemma length_sample p d pos xs : length (sample p d pos xs) ≤ length xs.
Proof.
  revert pos. induction xs as [|x xs IH]; intros pos; simpl; [done|].
  specialize (IH (S pos)). destruct (float_lt _ _); simpl; lia.
Qed.

Lemma length_kept_edges n p1 p2 p3 d c1 c2 :
  length (kept_edges n p1 p2 p3 d c1 c2) ≤ length (candidates c1 c2).
Proof.
  unfold kept_edges, candidates. rewrite !length_app.
  pose proof (length_sample p1 d n (pairs_within c1)).
  pose proof (length_sample p2 d (n + length (pairs_within c1))
                (pairs_within c2)).
  pose proof (length_sample p3 d
                (n + length (pairs_within c1) + length (pairs_within c2))
                (pairs_cross c1 c2)).
  lia.
Qed.

(** Whatever the probabilities, a run calls [random.random()] exactly
    [N + N * (N - 1) / 2] times, once a vertex and once a pair of
    vertices, and keeps at most [N * (N - 1) / 2] edges. *)
Theorem graph_generation_reads N p1 p2 p3 d :
  ∃ g, graph_generation N p1 p2 p3 d 0 = Some (g, N + N * (N - 1) / 2)
       ∧ length (edges g) ≤ N * (N - 1) / 2.
Proof.
  rewrite graph_generation_run.
  destruct (assign_range N d) as (_ & _ & Hl & _).
  rewrite length_candidates, Hl. eexists. split; [done|]. simpl.
  etrans; [apply length_kept_edges|]. by rewrite length_candidates, Hl.
Qed.

(** With fewer than two vertices there is no edge, and with none the
    vertex list is empty too. *)
Theorem graph_generation_small N p1 p2 p3 d :
  N ≤ 1 →
  ∃ g, run (graph_generation N p1 p2 p3) d = Some g
       ∧ edges g = [] ∧ (N = 0 → vertices g = []).
Proof.
  intros HN. rewrite run_graph_generation. eexists. split; [done|]. simpl.
  split; [|by intros ->].
  apply length_zero_iff_nil.
  pose proof (length_kept_edges N p1 p2 p3 d (assign d 0 (range N)).1
                (assign d 0 (range N)).2) as Hle.
  destruct (assign_range N d) as (_ & _ & Hl & _).
  rewrite length_candidates, Hl in Hle.
  assert (Hz : N * (N - 1) / 2 = 0) by (destruct N as [|[|?]]; [done|done|lia]).
  lia.
Qed.

Lemma graph_generation_small_witness :
  1 ≤ 1 ∧
  ∃ g, run (graph_generation 1 1 1 1) zero_draws = Some g
       ∧ edges g = [] ∧ (1 = 0 → vertices g = []).
Proof.
  split; [lia | apply (graph_generation_small 1 1 1 1 zero_draws); lia].
Defined.

Lemma sample_mono p q d pos xs :
  (p <= q)%Q → sample p d pos xs `sublist_of` sample q d pos xs.
Proof.
  intros Hpq. revert pos.
  induction xs as [|x xs IH]; intros pos; simpl; [constructor|].
  destruct (float_lt _ p) eqn:Hp.
  - apply float_lt_spec in Hp.
    assert (Hq : float_lt (float_of_draw (d pos)) q = true)
      by (apply float_lt_spec; by eapply Qlt_le_trans).
    rewrite Hq. by constructor.
  - destruct (float_lt _ q); [by constructor|done].
Qed.

(** On the same draws, raising the probabilities only adds edges: the
    edge list under the lower probabilities is a sub-list of the edge
    list under the higher ones, and the vertices are the same. *)
Theorem graph_generation_monotone N p1 p2 p3 q1 q2 q3 d :
  (p1 <= q1)%Q → (p2 <= q2)%Q → (p3 <= q3)%Q →
  ∃ g g',
    run (graph_generation N p1 p2 p3) d = Some g
    ∧ run (graph_generation N q1 q2 q3) d = Some g'
    ∧ vertices g = vertices g'
    ∧ edges g `sublist_of` edges g'.
Proof.
  intros H1 H2 H3. rewrite !run_graph_generation.
  do 2 eexists. split; [done|]. split; [done|]. split; [done|]. simpl.
  unfold kept_edges. repeat apply sublist_app; by apply sample_mono.
Qed.

Lemma graph_generation_monotone_witness :
  (float_0_001 <= float_0_01)%Q ∧ (float_0_01 <= 1)%Q ∧ (0 <= float_0_001)%Q ∧
  ∃ g g',
    run (graph_generation 4 float_0_001 float_0_01 0) half_draws = Some g
    ∧ run (graph_generation 4 float_0_01 1 float_0_001) half_draws = Some g'
    ∧ vertices g = vertices g'
    ∧ edges g `sublist_of` edges g'.
Proof.
  assert (H1 : (float_0_001 <= float_0_01)%Q) by (vm_compute; discriminate).
  assert (H2 : (float_0_01 <= 1)%Q) by (vm_compute; discriminate).
  assert (H3 : (0 <= float_0_001)%Q) by (vm_compute; discriminate).
  split; [exact H1|]. split; [exact H2|]. split; [exact H3|].
  exact (graph_generation_monotone 4 _ _ _ _ _ _ half_draws H1 H2 H3).
Defined.

(** * Further properties of the cycle generator *)

(** The script fails, on [indices[-1]], exactly when there is no vertex. *)
Theorem graph2_fails_iff N d : run (graph2 N) d = None ↔ N = 0.
Proof.
  split.
  - intros H. destruct (decide (N = 0)) as [|HN]; [done|].
    destruct (run_graph2 N d) as (s & _ & _ & Hrun); [lia|]. congruence.
  - intros ->. apply graph2_zero.
Qed.

(** A run with [N >= 1] vertices reads exactly [N - 1] draws, those of
    the shuffle, and any draws that agree with them on these positions
    give the same graph. *)
Theorem graph2_reads N d :
  1 ≤ N →
  ∃ g, graph2 N d 0 = Some (g, N - 1)
       ∧ ∀ d', agree d d' 0 (N - 1) → run (graph2 N) d' = Some g.
Proof.
  intros HN. destruct (shuffle_run N d) as (s & Hs & Hp).
  destruct (shuffled_range N s Hp) as (_ & Hl & _).
  rewrite (graph2_run N d s (N - 1) Hs Hl HN).
  eexists. split; [done|]. intros d' Hd. unfold run.
  rewrite (shuffle_agree N d d' Hd) in Hs.
  by rewrite (graph2_run N d' s (N - 1) Hs Hl HN).
Qed.

Lemma graph2_reads_witness :
  1 ≤ 4 ∧
  ∃ g, graph2 4 example_draws 0 = Some (g, 4 - 1)
       ∧ ∀ d', agree example_draws d' 0 (4 - 1) → run (graph2 4) d' = Some g.
Proof. split; [lia | apply (graph2_reads 4 example_draws); lia]. Defined.

(** Read as directed edges, the edges leave the vertices in the shuffled
    order and enter them in that order rotated by one place: every
    vertex is the first endpoint of one edge and the second endpoint of
    one edge. *)
Theorem graph2_endpoints N d :
  1 ≤ N →
  ∃ s g,
    shuffled N d = Some s ∧ s ≡ₚ range N
    ∧ run (graph2 N) d = Some g
    ∧ (fun e : list nat => e !! 0) <$> edges g = Some <$> s
    ∧ (fun e : list nat => e !! 1) <$> edges g
      = Some <$> (drop 1 s ++ take 1 s).
Proof.
  intros HN. destruct (run_graph2 N d HN) as (s & Hs & Hp & Hrun).
  destruct (shuffled_range N s Hp) as (Hnd & Hl & Hin).
  assert (Hne : s ≠ []) by (intros ->; simpl in *; lia).
  exists s. eexists. split; [done|]. split; [done|]. split; [done|]. simpl.
  split; apply list_eq; intros i; rewrite !list_lookup_fmap.
  - destruct (decide (i < N)) as [Hi|Hi].
    + destruct (lookup_lt_is_Some_2 s i) as [a Ha]; [lia|].
      destruct (lookup_lt_is_Some_2 s ((i + 1) mod length s)) as [b Hb];
        [apply Nat.mod_upper_bound; lia|].
      by rewrite (cycle_edges_lookup _ _ _ _ Ha Hb), Ha.
    + rewrite !lookup_ge_None_2; [done|lia|].
      rewrite length_cycle_edges by done. lia.
  - destruct (decide (i < N)) as [Hi|Hi].
    + destruct (lookup_lt_is_Some_2 s i) as [a Ha]; [lia|].
      destruct (lookup_lt_is_Some_2 s ((i + 1) mod length s)) as [b Hb];
        [apply Nat.mod_upper_bound; lia|].
      rewrite (cycle_edges_lookup _ _ _ _ Ha Hb). simpl.
      rewrite succ_mod in Hb by lia. case_decide as Hlast.
      * rewrite lookup_app_r by (rewrite length_drop; lia).
        rewrite length_drop. replace (i - (length s - 1)) with 0 by lia.
        rewrite lookup_take_lt by lia. by rewrite Hb.
      * rewrite lookup_app_l by (rewrite length_drop; lia).
        rewrite lookup_drop. replace (1 + i) with (i + 1) by lia.
        by rewrite Hb.
    + rewrite !lookup_ge_None_2; [done| |].
      * rewrite length_app, length_drop, length_take. lia.
      * rewrite length_cycle_edges by done. lia.
Qed.

Lemma graph2_endpoints_witness :
  1 ≤ 4 ∧
  ∃ s g,
    shuffled 4 example_draws = Some s ∧ s ≡ₚ range 4
    ∧ run (graph2 4) example_draws = Some g
    ∧ (fun e : list nat => e !! 0) <$> edges g = Some <$> s
    ∧ (fun e : list nat => e !! 1) <$> edges g
      = Some <$> (drop 1 s ++ take 1 s).
Proof. split; [lia | apply (graph2_endpoints 4 example_draws); lia]. Defined.

(** With two vertices or more no edge is a loop: each edge joins two
    distinct vertex indices below [N]. *)
Theorem graph2_no_self_loops N d :
  2 ≤ N →
  ∃ g, run (graph2 N) d = Some g
       ∧ ∀ e, e ∈ edges g → ∃ a b, e = [a; b] ∧ a ≠ b ∧ a < N ∧ b < N.
Proof.
  intros HN. destruct (run_graph2 N d) as (s & Hs & Hp & Hrun); [lia|].
  destruct (shuffled_range N s Hp) as (Hnd & Hl & Hin).
  eexists. split; [done|]. simpl. intros e He.
  pose proof (cycle_edges_NoDup s Hnd e ltac:(lia) He) as Hnde.
  apply list_elem_of_lookup in He as [i Hi].
  apply cycle_edges_lookup_inv in Hi as (a & b & Ha & Hb & ->).
  apply list_elem_of_lookup_2, Hin in Ha, Hb.
  exists a, b. split; [done|]. split; [|done].
  apply NoDup_cons in Hnde as [Hab _]. intros ->. apply Hab. by left.
Qed.

Lemma graph2_no_self_loops_witness :
  2 ≤ 4 ∧
  ∃ g, run (graph2 4) example_draws = Some g
       ∧ ∀ e, e ∈ edges g → ∃ a b, e = [a; b] ∧ a ≠ b ∧ a < 4 ∧ b < 4.
Proof. split; [lia | apply (graph2_no_self_loops 4 example_draws); lia]. Defined.

Lemma adjacent_symmetric es : Symmetric (adjacent es).
Proof. intros a b [H|H]; [by right|by left]. Qed.

Lemma path_connected (s : list nat) es s0 :
  s !! 0 = Some s0 →
  (∀ i a b, s !! i = Some a → s !! S i = Some b → adjacent es a b) →
  ∀ i a, s !! i = Some a → rtc (adjacent es) s0 a.
Proof.
  intros H0 Hadj. induction i as [|i IH]; intros a Ha.
  - by simplify_eq.
  - destruct (lookup_lt_is_Some_2 s i) as [a' Ha'];
      [apply lookup_lt_Some in Ha; lia|].
    eapply rtc_r; [by apply IH|by eapply Hadj].
Qed.

(** The graph is connected: any two vertices are linked by a chain of
    edges. *)
Theorem graph2_connected N d :
  1 ≤ N →
  ∃ g, run (graph2 N) d = Some g
       ∧ ∀ u v, u < N → v < N → rtc (adjacent (edges g)) u v.
Proof.
  intros HN. destruct (run_graph2 N d HN) as (s & Hs & Hp & Hrun).
  destruct (shuffled_range N s Hp) as (Hnd & Hl & Hin).
  eexists. split; [done|]. simpl.
  destruct (lookup_lt_is_Some_2 s 0) as [s0 H0]; [lia|].
  assert (Hreach : ∀ v, v < N → rtc (adjacent (cycle_edges s)) s0 v).
  { intros v [i Hi]%Hin%list_elem_of_lookup.
    apply (path_connected s _ s0 H0) with i; [|done].
    intros k a b Ha Hb. left. apply list_elem_of_lookup. exists k.
    apply cycle_edges_lookup; [done|].
    pose proof (lookup_lt_Some _ _ _ Hb).
    rewrite Nat.mod_small by lia. by replace (k + 1) with (S k) by lia. }
  pose proof (adjacent_symmetric (cycle_edges s)) as Hsym.
  intros u v Hu Hv. etrans; [symmetry; by apply Hreach|by apply Hreach].
Qed.

Lemma graph2_connected_witness :
  1 ≤ 4 ∧
  ∃ g, run (graph2 4) example_draws = Some g
       ∧ ∀ u v, u < 4 → v < 4 → rtc (adjacent (edges g)) u v.
Proof. split; [lia | apply (graph2_connected 4 example_draws); lia]. Defined.

(** ** Every order is a shuffle outcome *)






(** * The vertex names, and the scripts with their constants *)

Lemma format_int_inj a b : format_int a = format_int b → a = b.
Proof.
  unfold format_int. intros H.
  apply (f_equal NilEmpty.uint_of_string) in H.
  rewrite !NilEmpty.usu in H. injection H as H.
  apply (f_equal Nat.of_uint) in H.
  by rewrite !DecimalNat.Unsigned.of_to in H.
Qed.

Lemma vertex_names_NoDup N : NoDup (vertex_names N).
Proof.
  unfold vertex_names, range. apply NoDup_fmap_2_strong; [|apply NoDup_seq].
  intros a b _ _ H. apply format_int_inj in H. lia.
Qed.

(** The graph of either script has [N] vertex names, pairwise distinct,
    the name at position [k] being the decimal form of [k + 1]. *)
Theorem vertices_distinct N p1 p2 p3 d g :
  run (graph2 N) d = Some g ∨ run (graph_generation N p1 p2 p3) d = Some g →
  length (vertices g) = N ∧ NoDup (vertices g)
  ∧ ∀ k, k < N → vertices g !! k = Some (format_int (k + 1)).
Proof.
  intros H.
  assert (Hv : vertices g = vertex_names N).
  { destruct H as [H|H].
    - destruct (decide (N = 0)) as [->|HN]; [by rewrite graph2_zero in H|].
      destruct (run_graph2 N d) as (s & _ & _ & Hrun); [lia|].
      rewrite Hrun in H. by injection H as <-.
    - rewrite run_graph_generation in H. by injection H as <-. }
  rewrite Hv. split; [apply length_vertex_names|].
  split; [apply vertex_names_NoDup|]. intros k. apply vertex_names_lookup.
Qed.

Lemma vertices_distinct_witness :
  (run (graph2 4) example_draws
   = Some (Graph ["1"; "2"; "3"; "4"]%string [[2; 0]; [0; 3]; [3; 1]; [1; 2]])
   ∨ run (graph_generation 4 1 1 1) example_draws
     = Some (Graph ["1"; "2"; "3"; "4"]%string
               [[2; 0]; [0; 3]; [3; 1]; [1; 2]]))
  ∧ (length ["1"; "2"; "3"; "4"]%string = 4
     ∧ NoDup ["1"; "2"; "3"; "4"]%string
     ∧ ∀ k, k < 4 →
         ["1"; "2"; "3"; "4"]%string !! k = Some (format_int (k + 1))).
Proof.
  assert (H : run (graph2 4) example_draws
              = Some (Graph ["1"; "2"; "3"; "4"]%string
                        [[2; 0]; [0; 3]; [3; 1]; [1; 2]])) by reflexivity.
  split; [by left|].
  exact (vertices_distinct 4 1 1 1 example_draws _ (or_introl H)).
Defined.

Lemma graph2_ok N d :
  3 ≤ N →
  ∃ g, run (graph2 N) d = Some g
       ∧ length (vertices g) = N ∧ length (edges g) = N
       ∧ (∀ v, v < N → incident_edges v (edges g) = 2)
       ∧ (∀ a b, count_pair a b (edges g) ≤ 1)
       ∧ (∀ e, e ∈ edges g → ∃ a b, e = [a; b] ∧ a ≠ b).
Proof.
  intros HN. destruct (run_graph2 N d) as (s & Hs & Hp & Hrun); [lia|].
  destruct (shuffled_range N s Hp) as (Hnd & Hl & Hin).
  eexists. split; [done|]. simpl.
  split; [apply length_vertex_names|].
  split; [rewrite length_cycle_edges; [done|intros ->; simpl in *; lia]|].
  split; [|split].
  - intros v Hv. rewrite incident_endpoint.
    + apply endpoint_count_cycle; [done|by apply Hin].
    + intros e. apply cycle_edges_NoDup; [done|lia].
  - intros a b. apply count_pair_cycle; [done|lia].
  - intros e He.
    pose proof (cycle_edges_NoDup s Hnd e ltac:(lia) He) as Hnde.
    apply list_elem_of_lookup in He as [i Hi].
    apply cycle_edges_lookup_inv in Hi as (a & b & _ & _ & ->).
    exists a, b. split; [done|].
    apply NoDup_cons in Hnde as [Hab _]. intros ->. apply Hab. by left.
Qed.

(** [graph2.py] as it stands never fails: whatever the draws, it writes
    1000 vertices and 1000 edges, each vertex an endpoint of exactly two
    edges, no two edges joining the same pair, no edge a loop. *)
Theorem graph2_script_ok d :
  ∃ g, run graph2_script d = Some g
       ∧ length (vertices g) = 1000 ∧ length (edges g) = 1000
       ∧ (∀ v, v < 1000 → incident_edges v (edges g) = 2)
       ∧ (∀ a b, count_pair a b (edges g) ≤ 1)
       ∧ (∀ e, e ∈ edges g → ∃ a b, e = [a; b] ∧ a ≠ b).
Proof. apply (graph2_ok 1000 d). do 3 apply le_n_S. apply Nat.le_0_l. Qed.

(** [graph_generation.py] as it stands never fails: whatever the draws,
    it writes 1000 vertices and at most [1000 * 999 / 2] edges, each
    joining two distinct vertex indices below 1000, no two joining the
    same pair. *)
Theorem graph_generation_script_ok d :
  ∃ g, run graph_generation_script d = Some g
       ∧ length (vertices g) = 1000
       ∧ length (edges g) ≤ 1000 * (1000 - 1) / 2
       ∧ (∀ e, e ∈ edges g →
            ∃ a b, e = [a; b] ∧ a ≠ b ∧ a < 1000 ∧ b < 1000)
       ∧ (∀ a b, count_pair a b (edges g) ≤ 1).
Proof.
  unfold graph_generation_script. generalize 1000 as N. intros N.
  rewrite run_graph_generation. eexists. split; [done|]. simpl.
  destruct (assign_range N d) as (Hp & Hnd & Hl & Hin).
  split; [apply length_vertex_names|]. split; [|split].
  - etrans; [apply length_kept_edges|]. by rewrite length_candidates, Hl.
  - intros e He. apply elem_of_kept in He. rewrite candidates_perm in He.
    apply elem_of_pairs_within in He as (a & b & -> & Hab & Ha & Hb); [|done].
    exists a, b. by rewrite <- !Hin.
  - intros a b. etrans; [apply count_pair_kept|].
    rewrite (count_pair_perm _ _ _ _ (candidates_perm _ _)).
    rewrite count_pair_within by done. case_decide; lia.
Qed.

(** The document of the community generator holds the vertex names as
    strings and each edge as a 2-element array of integers, two distinct
    zero-based positions in the vertices array. *)
Theorem graph_generation_document N p1 p2 p3 d :
  ∃ g, run (graph_generation N p1 p2 p3) d = Some g
       ∧ vertices_array (document g) = JStr <$> vertex_names N
       ∧ length (edges_array (document g)) = length (edges g)
       ∧ ∀ e, e ∈ edges_array (document g) →
           ∃ a b : nat,
             e = JArr [JNum (Z.of_nat a); JNum (Z.of_nat b)]
             ∧ a ≠ b
             ∧ vertices g !! a = Some (format_int (a + 1))
             ∧ vertices g !! b = Some (format_int (b + 1)).
Proof.
  rewrite run_graph_generation. eexists. split; [done|].
  split; [done|]. unfold edges_array, document. simpl.
  split; [by rewrite length_fmap|].
  destruct (assign_range N d) as (Hp & Hnd & Hl & Hin).
  intros e (e' & -> & He)%list_elem_of_fmap.
  apply elem_of_kept in He. rewrite candidates_perm in He.
  apply elem_of_pairs_within in He as (a & b & -> & Hab & Ha & Hb); [|done].
  apply Hin in Ha, Hb. exists a, b. split; [done|]. split; [done|].
  by rewrite !vertex_names_lookup by done.
Qed.
